(** * amstramdam.game.geo : the geodesic kernel, embedded in Rocq

    A shallow embedding of [src/amstramdam/game/geo.py].

    Numbers.  Python [float]s are idealised as the real numbers of the
    Standard Library: every arithmetic operation is exact, there is no
    rounding, no signed zero, no infinity and no NaN.  Python [int]s are
    [Z].  Statements over this model are statements about the formulas
    the code evaluates, in exact arithmetic; the binary64 program agrees
    with them up to rounding.  Where rounding changes the kind of result
    (the excluded end of a range is reached, an arcsine leaves its domain
    near a pole), the statements either carry margins that keep the
    program away from such inputs, or are made in module [b64], which
    models the float modulo in binary64 itself.

    Failure.  A Python call either returns a value or raises; a function
    that contains an operation able to raise returns a [result], and the
    exception classes that occur are listed in [exn].

    Identity.  Instances of a class that does not define [__eq__] compare by
    identity; [Point] objects therefore carry the identity they were
    allocated with, next to their two fields. *)

From Stdlib Require Import Reals Lra Lia ZArith List String Bool.
From Stdlib Require Import Zfloor DecimalString.
From Stdlib Require Floats.
Import ListNotations.

Open Scope R_scope.

(** ** Results and exceptions *)

Inductive exn : Type :=
| KeyError (msg : string)
| ValueError
| ZeroDivisionError.

Inductive result (A : Type) : Type :=
| Ok (a : A)
| Raise (e : exn).

Arguments Ok {A} a.
Arguments Raise {A} e.

Definition bind {A B : Type} (m : result A) (k : A -> result B) : result B :=
  match m with
  | Ok a => k a
  | Raise e => Raise e
  end.

Notation "x <- m ;; k" := (bind m (fun x => k))
  (at level 61, m at next level, right associativity).

Definition returns {A : Type} (m : result A) : Prop := exists a, m = Ok a.

(** ** The [math] module and float arithmetic, over exact reals *)

Module math.

Definition pi : R := PI.

(** [math.radians(x)] is [x * (pi / 180)], [math.degrees(x)] is
    [x * (180 / pi)]. *)
Definition radians (x : R) : R := x * (pi / 180).
Definition degrees (x : R) : R := x * (180 / pi).

Definition sin : R -> R := Rtrigo_def.sin.
Definition cos : R -> R := Rtrigo_def.cos.

(** [math.asin] raises [ValueError] outside [[-1, 1]].  (In binary64 a
    rounded argument can leave the interval although the exact one does
    not.) *)
Definition asin (x : R) : result R :=
  if Rle_dec (-1) x then
    if Rle_dec x 1 then Ok (Ratan.asin x) else Raise ValueError
  else Raise ValueError.

(** [math.atan2(y, x)]: the angle of the vector [(x, y)] in [(-pi, pi]],
    with the C library's value [0] at the origin. *)
Definition atan2 (y x : R) : R :=
  if Rlt_dec 0 x then atan (y / x)
  else if Rlt_dec x 0 then
    if Rle_dec 0 y then atan (y / x) + PI else atan (y / x) - PI
  else if Rlt_dec 0 y then PI / 2
  else if Rlt_dec y 0 then - (PI / 2)
  else 0.

(** [math.floor] returns an [int]. *)
Definition floor (x : R) : Z := Zfloor x.

(** Rounding towards zero, as C's [fmod] needs it. *)
Definition trunc (x : R) : Z :=
  if Rle_dec 0 x then Zfloor x else Zceil x.

(** C's [fmod(x, y)]: the remainder of the truncating division; it has
    the sign of [x]. *)
Definition fmod (x y : R) : R := x - IZR (trunc (x / y)) * y.

(** Python's [vx % wx] on floats ([float_rem] of CPython): [fmod],
    moved by one divisor when its sign differs from the divisor's.  Over
    exact reals; [b64.float_rem] is the same function in binary64, where
    the addition rounds. *)
Definition float_rem (vx wx : R) : result R :=
  if Req_dec_T wx 0 then Raise ZeroDivisionError
  else
    let m := fmod vx wx in
    if Req_dec_T m 0 then Ok 0
    else if Rlt_dec wx 0 then
      (if Rlt_dec m 0 then Ok m else Ok (m + wx))
    else
      (if Rlt_dec m 0 then Ok (m + wx) else Ok m).

End math.

(** ** The float modulo in binary64 *)

Module b64.

(** The float of mantissa [m] and exponent [e], [m * 2^e]. *)
Definition of_mantissa (m e : Z) : PrimFloat.float :=
  FloatOps.Z.ldexp (PrimFloat.of_uint63 (Uint63Axioms.of_Z m)) e.

(** [math.pi], [0x1.921fb54442d18p+1]. *)
Definition pi : PrimFloat.float := of_mantissa 7074237752028440 (-51).

(** [2 * math.pi] *)
Definition two_pi : PrimFloat.float := PrimFloat.mul (of_mantissa 2 0) pi.

(** The float literal [-1e-20], [-0x1.79ca10c924223p-67]. *)
Definition minus_1e_20 : PrimFloat.float :=
  PrimFloat.opp (of_mantissa 6646139978924579 (-119)).

(** C's [fmod] on doubles: NaN for a NaN or infinite [x] and for a NaN or
    zero [y]; [x] itself for an infinite [y]; otherwise the remainder of
    the truncating division, which is a float and is computed exactly,
    with the sign of [x]. *)
Definition fmod (x y : PrimFloat.float) : PrimFloat.float :=
  match FloatOps.Prim2SF x, FloatOps.Prim2SF y with
  | SpecFloat.S754_nan, _ | _, SpecFloat.S754_nan => PrimFloat.nan
  | SpecFloat.S754_infinity _, _ => PrimFloat.nan
  | _, SpecFloat.S754_zero _ => PrimFloat.nan
  | SpecFloat.S754_zero _, _ => x
  | SpecFloat.S754_finite _ _ _, SpecFloat.S754_infinity _ => x
  | SpecFloat.S754_finite sx mx ex, SpecFloat.S754_finite _ my ey =>
      let e := Z.min ex ey in
      let X := (Zpos mx * 2 ^ (ex - e))%Z in
      let Y := (Zpos my * 2 ^ (ey - e))%Z in
      match (X mod Y)%Z with
      | Zpos r => FloatOps.SF2Prim (SpecFloat.S754_finite sx r e)
      | _ => FloatOps.SF2Prim (SpecFloat.S754_zero sx)
      end
  end.

(** [copysign(0.0, w)] for a [w] that is not zero. *)
Definition copysign_zero (w : PrimFloat.float) : PrimFloat.float :=
  if PrimFloat.ltb w PrimFloat.zero then PrimFloat.neg_zero
  else PrimFloat.zero.

(** CPython's [float_rem]: [vx % wx]. *)
Definition float_rem (vx wx : PrimFloat.float) : result PrimFloat.float :=
  if PrimFloat.eqb wx PrimFloat.zero then Raise ZeroDivisionError
  else
    let m := fmod vx wx in
    if PrimFloat.eqb m PrimFloat.zero then Ok (copysign_zero wx)
    else if Bool.eqb (PrimFloat.ltb wx PrimFloat.zero)
                     (PrimFloat.ltb m PrimFloat.zero)
    then Ok m
    else Ok (PrimFloat.add m wx).

(** [normalize_angle], in binary64. *)
Definition normalize_angle (a : PrimFloat.float) : result PrimFloat.float :=
  float_rem a two_pi.

End b64.

(** ** The [numpy] operations the kernel uses *)

Module np.

(** [np.arange(0, n)] for an [int] [n]: the integers [0 .. n-1], empty
    when [n <= 0]. *)
Definition arange0 (n : Z) : list Z := map Z.of_nat (seq 0 (Z.to_nat n)).

(** An array is one-dimensional (shape [(len,)]) or two-dimensional
    (shape [(rows, columns)], stored by rows). *)
Inductive ndarray : Type :=
| Arr1 (v : list R)
| Arr2 (rows : list (list R)).

(** [np.asarray] of a list of 2-tuples: shape [(n, 2)]; the empty list
    gives the empty one-dimensional array, of shape [(0,)]. *)
Definition array_of_pairs (points : list (R * R)) : ndarray :=
  match points with
  | [] => Arr1 []
  | _ :: _ => Arr2 (map (fun c => [fst c; snd c]) points)
  end.

Definition map_array (f : R -> R) (a : ndarray) : ndarray :=
  match a with
  | Arr1 v => Arr1 (map f v)
  | Arr2 rows => Arr2 (map (map f) rows)
  end.

Definition deg2rad_array : ndarray -> ndarray := map_array math.radians.

(** The [k] columns of a matrix given by rows. *)
Fixpoint columns (k : nat) (rows : list (list R)) : list (list R) :=
  match k with
  | O => []
  | S k' => map (hd 0) rows :: columns k' (map (@tl R) rows)
  end.

(** [a.transpose()]: a one-dimensional array is returned unchanged. *)
Definition transpose (a : ndarray) : ndarray :=
  match a with
  | Arr1 v => Arr1 v
  | Arr2 rows => Arr2 (columns (List.length (hd [] rows)) rows)
  end.

(** Iterating an array goes along its first axis: the scalars of a
    one-dimensional array (shown as vectors of length one), the rows of
    a two-dimensional one. *)
Definition items (a : ndarray) : list (list R) :=
  match a with
  | Arr1 v => map (fun x => [x]) v
  | Arr2 rows => rows
  end.

(** [x, y = a]: unpacking needs exactly two items. *)
Definition unpack2 (a : ndarray) : result (list R * list R) :=
  match items a with
  | [x; y] => Ok (x, y)
  | _ => Raise ValueError
  end.

(** Elementwise operations on one-dimensional arrays. *)
Definition sin : list R -> list R := map math.sin.
Definition cos : list R -> list R := map math.cos.
Definition rad2deg : list R -> list R := map (fun x => x * (180 / math.pi)).

(** [np.arcsin] and [np.sqrt] give NaN outside their domain instead of
    raising.  In exact arithmetic the kernel calls them inside their
    domain only (lemmas [destination_arcsin_domain] and
    [haversine_arg_bounds]), where they are the real arcsine and square
    root; in binary64 a rounded argument can leave the domain (a circle
    touching a pole, two antipodal points) and the result is NaN. *)
Definition arcsin : list R -> list R := map Ratan.asin.
Definition sqrt : list R -> list R := map R_sqrt.sqrt.

(** Binary operations between arrays of the same shape. *)
Fixpoint map2 (f : R -> R -> R) (u v : list R) : list R :=
  match u, v with
  | x :: u', y :: v' => f x y :: map2 f u' v'
  | _, _ => []
  end.

Definition arctan2 : list R -> list R -> list R := map2 math.atan2.

End np.

(** ** The built-in [round] on floats *)

Module builtins.

(** Rounding to the nearest integer, ties to the even one. *)
Definition round_half_even (x : R) : Z :=
  let f := Zfloor x in
  if Rlt_dec (x - IZR f) (1 / 2) then f
  else if Rlt_dec (1 / 2) (x - IZR f) then (f + 1)%Z
  else if Z.even f then f else (f + 1)%Z.

(** [round(x, ndigits)] for a float [x] and an [int] [ndigits]: the
    multiple of [10 ** -ndigits] nearest to [x], ties to the even
    multiple. *)
Definition round (x : R) (ndigits : Z) : R :=
  IZR (round_half_even (x * powerRZ 10 ndigits)) / powerRZ 10 ndigits.

End builtins.

(** ** [Point] *)

(** A [Point] object: the identity it was allocated with ([id(p)]) and its
    two attributes. *)
Record Point : Type := mkPoint { ident : nat; lon : R; lat : R }.

(** [Point(lon, lat)]: allocates a fresh object and stores both arguments
    as they are.  [next] is the allocator's next free identity. *)
Definition Point_new (lon lat : R) (next : nat) : result (Point * nat) :=
  Ok ({| ident := next; lon := lon; lat := lat |}, S next).

(** [Point.from_latlon(lat, lon)] *)
Definition from_latlon (lat lon : R) (next : nat) : result (Point * nat) :=
  Point_new lon lat next.

(** [repr] of an [int], as the f-string of [__getitem__] prints it. *)
Definition repr_int (i : Z) : string := NilZero.string_of_int (Z.to_int i).

(** [Point.__getitem__] *)
Definition Point_getitem (self : Point) (item : Z) : result R :=
  if (item =? 0)%Z then Ok (lon self)
  else if (item =? 1)%Z then Ok (lat self)
  else Raise (KeyError ("Invalid key '" ++ repr_int item ++ "' (should be 0 or 1)")).

(** [Point.__iter__]: the items [iter((self.lon, self.lat))] yields. *)
Definition Point_iter (self : Point) : list R := [lon self; lat self].

(** The class defines no [__eq__]: [p == q] is [object]'s comparison,
    which is identity. *)
Definition Point_eq (p q : Point) : bool := Nat.eqb (ident p) (ident q).

Section Hashing.

(** The built-in [hash] of a float and of a tuple (from the hashes of its
    items): interpreter functions, kept abstract. *)
Variable hash_float : R -> Z.
Variable hash_tuple : list Z -> Z.

(** [Point.__hash__]: [hash(tuple(self))] *)
Definition Point_hash (self : Point) : Z :=
  hash_tuple (map hash_float (Point_iter self)).

End Hashing.

Definition as_deg (self : Point) : R * R := (lon self, lat self).
Definition as_rad (self : Point) : R * R :=
  (math.radians (lon self), math.radians (lat self)).
Definition lonlat (self : Point) : R * R := (lon self, lat self).
Definition latlon (self : Point) : R * R := (lat self, lon self).

(** The default of the [prec] parameter of [Point.round] and of
    [round_point]. *)
Definition prec_default : Z := 4.

(** [Point.round(prec)]: a new [Point] of the rounded fields. *)
Definition Point_round (self : Point) (prec : Z) (next : nat)
    : result (Point * nat) :=
  Point_new (builtins.round (lon self) prec) (builtins.round (lat self) prec)
            next.

(** [PointLike = Union[CoordinatesTuple, Point]] *)
Inductive PointLike : Type :=
| Coords (c : R * R)
| PointObj (p : Point).

(** [x, y = p] for a [PointLike]: a tuple gives its components, a [Point]
    is iterated. *)
Definition unpack (p : PointLike) : R * R :=
  match p with
  | Coords c => c
  | PointObj q => (lon q, lat q)
  end.

(** ** Conversions *)

Definition to_deg (p : PointLike) : R * R :=
  let '(lam, phi) := unpack p in
  (math.degrees lam, math.degrees phi).

Definition to_rad (p : PointLike) : R * R :=
  let '(lon, lat) := unpack p in
  (math.radians lon, math.radians lat).

(** ** Rounding points *)

Definition round_point (point : PointLike) (prec : Z) : R * R :=
  let '(x, y) := unpack point in
  (builtins.round x prec, builtins.round y prec).

Definition convert_points (points : list PointLike) : list (R * R) :=
  map (fun point => round_point point prec_default) points.

(** ** Scalar geodesy *)

Definition normalize_angle (a : R) : result R :=
  math.float_rem a (2 * math.pi).

Definition angle (start point : PointLike) : result R :=
  let '(lam1, phi1) := to_rad start in
  let '(lam2, phi2) := to_rad point in
  let y := math.sin (lam2 - lam1) * math.cos phi2 in
  let x := math.cos phi1 * math.sin phi2
           - math.sin phi1 * math.cos phi2 * math.cos (lam2 - lam1) in
  let theta := math.atan2 y x in
  normalize_angle theta.

(** In exact arithmetic the argument of the arcsine is within [[-1, 1]]
    (lemma [destination_arcsin_domain]); in binary64 rounding can push it
    past 1 when the destination is at a pole, and [move] and
    [move_given_angle] then raise [ValueError]. *)
Definition move (start : PointLike) (theta distance : R) : result (R * R) :=
  let '(lam, phi) := to_rad start in
  let delta := distance / 6371 in
  phi2 <- math.asin (math.sin phi * math.cos delta
                     + math.cos phi * math.sin delta * math.cos theta) ;;
  let lam2 := lam + math.atan2 (math.sin delta * math.sin theta * math.cos phi)
                               (math.cos delta - math.sin phi * math.sin phi2) in
  let '(lon2, lat2) := to_deg (Coords (lam2, phi2)) in
  Ok (lon2, lat2).

(** What [print] is given: string literals, floats, and the f-string of
    the first line (an angle in degrees, formatted with [.0f]). *)
Inductive printed : Type :=
| Str (s : string)
| Num (x : R)
| IeDegrees (x : R).

(** [move_given_angle] returns its value together with the lines it
    printed. *)
Definition move_given_angle (theta : R) (start : PointLike) (distance : R)
    (verbose : bool) : result ((R * R) * list (list printed)) :=
  let '(lam, phi) := to_rad start in
  let delta := distance / 6371 in
  phi2 <- math.asin (math.sin phi * math.cos delta
                     + math.cos phi * math.sin delta * math.cos theta) ;;
  let lam2 := lam + math.atan2 (math.sin delta * math.sin theta * math.cos phi)
                               (math.cos delta - math.sin phi * math.sin phi2) in
  let '(lon2, lat2) := to_deg (Coords (lam2, phi2)) in
  let out :=
    if verbose then
      [ [Str "angle:"; Num theta; IeDegrees (math.degrees theta)];
        [Str "start:"; Num (fst (unpack start)); Num (snd (unpack start))];
        [Str "end:  "; Num lon2; Num lat2];
        [Str ""] ]
    else [] in
  Ok ((lon2, lat2), out).

(** The default of the [verbose] parameter. *)
Definition verbose_default : bool := false.

Definition get_curr_angle (point ref center : PointLike) : result R :=
  a0 <- angle center ref ;;
  normal_angle <- normalize_angle (a0 + math.pi / 2) ;;
  a1 <- angle ref point ;;
  normalize_angle (a1 - normal_angle).

(** [distance] hands both points to [geopy]: [geod.lonlat(x, y)] is the
    [geopy] point of latitude [y] and longitude [x], and
    [geod.distance(p1, p2).km] is the library's ellipsoidal geodesic
    solver.  The solver is third-party code and is kept abstract. *)
Section Geopy.

Variable geodesic_km : R * R -> R * R -> result R.

Definition geod_lonlat (x y : R) : R * R := (y, x).

Definition distance (pointA pointB : PointLike) : result R :=
  let '(xa, ya) := unpack pointA in
  let '(xb, yb) := unpack pointB in
  geodesic_km (geod_lonlat xa ya) (geod_lonlat xb yb).

End Geopy.

(** ** Batch geodesy *)

Definition vectorized_distance (ref : PointLike) (points : list (R * R))
    : result (list R) :=
  rows <- np.unpack2 (np.transpose (np.deg2rad_array (np.array_of_pairs points))) ;;
  let '(lons, lats) := rows in
  let '(lon, lat) := to_rad ref in
  let a :=
    np.map2 Rplus
      (map (fun s => s ^ 2) (np.sin (map (fun x => (x - lat) / 2) lats)))
      (np.map2 Rmult
         (map (fun c => math.cos lat * c) (np.cos lats))
         (map (fun s => s ^ 2) (np.sin (map (fun x => (x - lon) / 2) lons)))) in
  Ok (map (fun t => 6371 * 2 * t)
          (np.arctan2 (np.sqrt a) (np.sqrt (map (fun x => 1 - x) a)))).

Definition vectorized_circle (center : PointLike) (dist : R)
    (n_points : option Z) : list (R * R) :=
  let n_points :=
    match n_points with
    | Some n => n
    | None =>
        let full_length := 2 * math.pi * dist in
        let every := 1 in
        math.floor (full_length / every)
    end in
  let thetas :=
    map (fun k => 2 * math.pi * IZR k / IZR n_points) (np.arange0 n_points) in
  let '(lam, phi) := to_rad center in
  let delta := dist / 6371 in
  let phi2 :=
    np.arcsin
      (map (fun c => math.sin phi * math.cos delta
                     + math.cos phi * math.sin delta * c) (np.cos thetas)) in
  let lam2 :=
    map (fun t => lam + t)
      (np.arctan2
         (map (fun s => math.sin delta * s * math.cos phi) (np.sin thetas))
         (map (fun s => math.cos delta - math.sin phi * s) (np.sin phi2))) in
  combine (np.rad2deg lam2) (np.rad2deg phi2).

(** ** Specification-side definitions *)

(** Coordinate ranges of the data model: longitude in [(-180, 180]],
    latitude in [[-90, 90]]. *)
Definition in_range (lon lat : R) : Prop :=
  -180 < lon <= 180 /\ -90 <= lat <= 90.

(** The haversine distance on a sphere of radius 6371 km between two
    points given in degrees, in its arcsine form:
    [2 R asin (sqrt (hav dphi + cos phi1 cos phi2 hav dlam))]. *)
Definition hav (x : R) : R := Rtrigo_def.sin (x / 2) ^ 2.

Definition haversine_km (p q : R * R) : R :=
  let lam1 := math.radians (fst p) in
  let phi1 := math.radians (snd p) in
  let lam2 := math.radians (fst q) in
  let phi2 := math.radians (snd q) in
  2 * 6371 *
  Ratan.asin (R_sqrt.sqrt (hav (phi2 - phi1)
     + Rtrigo_def.cos phi1 * Rtrigo_def.cos phi2 * hav (lam2 - lam1))).

(** The value [move] returns, written out. *)
Definition destination (start : PointLike) (theta distance : R) : R * R :=
  let lam := math.radians (fst (unpack start)) in
  let phi := math.radians (snd (unpack start)) in
  let delta := distance / 6371 in
  let phi2 := Ratan.asin (sin phi * cos delta + cos phi * sin delta * cos theta) in
  let lam2 := lam + math.atan2 (sin delta * sin theta * cos phi)
                               (cos delta - sin phi * sin phi2) in
  (math.degrees lam2, math.degrees phi2).

(** Margins that keep the binary64 evaluation of the destination and
    bearing formulas away from their singular configurations: the start
    is at least 0.1 degree away from both poles, the distance is at least
    one metre and at most 19000 km (short of the antipode), and the
    circle of radius [d] around the start passes at least 0.1 degree away
    from both poles. *)
Definition clear_of_poles (lat d : R) : Prop :=
  -89.9 <= lat <= 89.9 /\
  0.001 <= d <= 19000 /\
  0.1 <= Rabs (lat + math.degrees (d / 6371) - 90) /\
  0.1 <= Rabs (lat - math.degrees (d / 6371) + 90).


(** * Properties *)

(** ** Results *)

Lemma returns_Ok {A : Type} (a : A) : returns (Ok a).
Proof. exists a; reflexivity. Qed.

Lemma returns_bind {A B : Type} (m : result A) (k : A -> result B) :
  returns m -> (forall a, returns (k a)) -> returns (x <- m ;; k x).
Proof.
  intros [a ->] Hk. simpl. apply Hk.
Qed.

Lemma Raise_not_returns {A : Type} (e : exn) : ~ returns (@Raise A e).
Proof. intros [a Ha]; discriminate Ha. Qed.

(** ** Indexing a [Point] *)

(** C9. Indexing is defined on 0 and 1 only: [p[0]] is [p.lon], [p[1]] is
    [p.lat], and any other integer index raises a [KeyError], the one whose
    message names the index. *)
Theorem Point_getitem_total_on_0_1 (p : Point) :
  Point_getitem p 0 = Ok (lon p) /\
  Point_getitem p 1 = Ok (lat p) /\
  forall i : Z, i <> 0%Z -> i <> 1%Z ->
    Point_getitem p i =
    Raise (KeyError ("Invalid key '" ++ repr_int i ++ "' (should be 0 or 1)")).
Proof.
  repeat split.
  intros i H0 H1. unfold Point_getitem.
  destruct (Z.eqb_spec i 0) as [E | _]; [contradiction |].
  destruct (Z.eqb_spec i 1) as [E | _]; [contradiction |].
  reflexivity.
Qed.

Lemma Point_getitem_total_on_0_1_witness :
  Point_getitem (mkPoint 0 3 4) 2 =
  Raise (KeyError "Invalid key '2' (should be 0 or 1)").
Proof.
  destruct (Point_getitem_total_on_0_1 (mkPoint 0 3 4)) as (_ & _ & H).
  apply (H 2%Z); lia.
Defined.

(** ** The two destination functions *)

(** C10. [move] and [move_given_angle] with [verbose] at its default
    compute the same thing: whenever one raises so does the other, with the
    same exception, and otherwise both return the same pair, and nothing is
    printed. *)
Theorem move_given_angle_default_is_move (start : PointLike) (theta d : R) :
  move_given_angle theta start d verbose_default =
  (v <- move start theta d ;; Ok (v, [])).
Proof.
  unfold move_given_angle, move, verbose_default.
  destruct (to_rad start) as [lam phi].
  destruct (math.asin _) as [phi2 | e]; reflexivity.
Qed.

(** ** Equality and hashing of [Point] *)

Section PointIdentity.

Variable hash_float : R -> Z.
Variable hash_tuple : list Z -> Z.

(** Hashing goes by the two fields. *)
Lemma Point_hash_by_fields (p q : Point) :
  lon p = lon q -> lat p = lat q ->
  Point_hash hash_float hash_tuple p = Point_hash hash_float hash_tuple q.
Proof.
  intros Hlon Hlat. unfold Point_hash, Point_iter.
  rewrite Hlon, Hlat. reflexivity.
Qed.

(** Equality goes by identity: two objects are equal exactly when they
    are the same allocation. *)
Lemma Point_eq_iff_ident (p q : Point) :
  Point_eq p q = true <-> ident p = ident q.
Proof. unfold Point_eq. apply Nat.eqb_eq. Qed.

(** Two constructions never give equal objects, whatever the
    coordinates. *)
Lemma Point_new_twice_unequal (x y x' y' : R) (next : nat) :
  exists p q next',
    (a <- Point_new x y next ;; b <- Point_new x' y' (snd a) ;;
     Ok (fst a, fst b, snd b)) = Ok (p, q, next') /\
    Point_eq p q = false.
Proof.
  eexists _, _, _. split; [reflexivity |].
  unfold Point_eq. cbn [ident fst snd]. apply Nat.eqb_neq. lia.
Qed.

(** C1. [Point(1.0, 2.0) == Point(1.0, 2.0)] is [False]: two points
    built one after the other from the same coordinates have equal
    fields and equal hashes, and still compare unequal. *)
Theorem Point_eq_ignores_fields :
  exists p q next,
    (a <- Point_new 1 2 0 ;; b <- Point_new 1 2 (snd a) ;;
     Ok (fst a, fst b, snd b)) = Ok (p, q, next) /\
    lon p = lon q /\ lat p = lat q /\
    Point_hash hash_float hash_tuple p = Point_hash hash_float hash_tuple q /\
    Point_eq p q = false.
Proof.
  eexists _, _, _. split; [reflexivity |].
  repeat split.
Qed.

End PointIdentity.

(** ** Construction *)

(** C2, as stated, fails: longitude 200 and latitude 100 are out of range
    and [Point(200, 100)] is built without any failure. *)
Lemma Point_new_accepts_out_of_range :
  ~ in_range 200 100 /\
  Point_new 200 100 0 = Ok (mkPoint 0 200 100, 1%nat) /\
  forall e, Point_new 200 100 0 <> Raise e.
Proof.
  split; [| split].
  - unfold in_range. lra.
  - reflexivity.
  - intros e H. discriminate H.
Qed.

(** ** Float modulo and angle normalisation *)

Lemma Zceil_floor_cases (q : R) :
  Zceil q = Zfloor q \/ Zceil q = (Zfloor q + 1)%Z.
Proof.
  pose proof (Zfloor_bound q) as [Hf1 Hf2].
  pose proof (Zceil_bound q) as [Hc1 Hc2].
  assert (H1 : (Zfloor q <= Zceil q)%Z) by (apply le_IZR; lra).
  assert (H2 : (Zceil q < Zfloor q + 2)%Z).
  { apply lt_IZR. rewrite plus_IZR. lra. }
  lia.
Qed.

Lemma floor_remainder_bounds (x w : R) :
  0 < w -> 0 <= x - IZR (Zfloor (x / w)) * w < w.
Proof.
  intros Hw.
  pose proof (Zfloor_bound (x / w)) as [H1 H2].
  assert (Hx : x = x / w * w) by (field; lra).
  split.
  - apply Rmult_le_compat_r with (r := w) in H1; lra.
  - apply Rmult_lt_compat_r with (r := w) in H2; lra.
Qed.

(** For a positive divisor Python's [%] is the floored modulo. *)
Lemma float_rem_floor (x w : R) :
  0 < w -> math.float_rem x w = Ok (x - IZR (Zfloor (x / w)) * w).
Proof.
  intros Hw.
  pose proof (floor_remainder_bounds x w Hw) as [Hlo Hhi].
  unfold math.float_rem, math.fmod, math.trunc.
  destruct (Req_dec_T w 0) as [E | _]; [lra |].
  destruct (Rle_dec 0 (x / w)) as [Hq | Hq].
  - destruct (Req_dec_T _ 0) as [E | _]; [rewrite E; reflexivity |].
    destruct (Rlt_dec w 0); [lra |].
    destruct (Rlt_dec _ 0); [lra | reflexivity].
  - destruct (Zceil_floor_cases (x / w)) as [-> | ->].
    + destruct (Req_dec_T _ 0) as [E | _]; [rewrite E; reflexivity |].
      destruct (Rlt_dec w 0); [lra |].
      destruct (Rlt_dec _ 0); [lra | reflexivity].
    + rewrite plus_IZR.
      destruct (Req_dec_T _ 0) as [E | _]; [exfalso; lra |].
      destruct (Rlt_dec w 0); [lra |].
      destruct (Rlt_dec _ 0) as [_ | Hn]; [f_equal; ring | exfalso; lra].
Qed.

Lemma two_pi_pos : 0 < 2 * math.pi.
Proof. unfold math.pi. pose proof PI_RGT_0. lra. Qed.

Lemma normalize_angle_floor (a : R) :
  normalize_angle a = Ok (a - IZR (Zfloor (a / (2 * PI))) * (2 * PI)).
Proof.
  unfold normalize_angle. rewrite float_rem_floor by apply two_pi_pos.
  reflexivity.
Qed.

Lemma normalize_angle_0 : normalize_angle 0 = Ok 0.
Proof.
  rewrite normalize_angle_floor.
  replace (0 / (2 * PI)) with (IZR 0) by (unfold Rdiv; ring).
  rewrite ZfloorZ. f_equal. ring.
Qed.

Lemma normalize_angle_returns (a : R) : returns (normalize_angle a).
Proof. rewrite normalize_angle_floor. apply returns_Ok. Qed.

(** In exact arithmetic [normalize_angle] returns the representative of
    its argument modulo [2 pi] that lies in [[0, 2 pi)]: adding a full
    turn to the argument does not change it, and [-pi/2] gives
    [3 pi/2].  (In binary64 the upper end is reached: see
    [normalize_angle_b64_reaches_two_pi].) *)
Lemma normalize_angle_exact (theta : R) :
  (exists v (k : Z), normalize_angle theta = Ok v /\
                     v = theta - IZR k * (2 * PI) /\ 0 <= v < 2 * PI) /\
  normalize_angle (theta + 2 * PI) = normalize_angle theta /\
  normalize_angle (- (PI / 2)) = Ok (3 * PI / 2).
Proof.
  pose proof PI_RGT_0 as Hpi.
  split; [| split].
  - eexists _, _. split; [apply normalize_angle_floor |].
    split; [reflexivity |].
    apply floor_remainder_bounds. lra.
  - rewrite !normalize_angle_floor.
    replace ((theta + 2 * PI) / (2 * PI)) with (theta / (2 * PI) + IZR 1)
      by (field; lra).
    rewrite Zfloor_addz, plus_IZR. f_equal. ring.
  - rewrite normalize_angle_floor.
    assert (E : Zfloor (- (PI / 2) / (2 * PI)) = (-1)%Z).
    { apply Zfloor_eq.
      replace (- (PI / 2) / (2 * PI)) with (- (1 / 4)) by (field; lra).
      lra. }
    rewrite E. f_equal. field.
Qed.

(** C3. In binary64 [normalize_angle(-1e-20)] is [2 * math.pi] itself:
    the remainder [-1e-20] has the sign opposite to the divisor's, the
    divisor is added, and the sum rounds to the divisor.  The value
    returned is not below [2 * math.pi], and normalising it once more
    gives 0. *)
Theorem normalize_angle_b64_reaches_two_pi :
  b64.normalize_angle b64.minus_1e_20 = Ok b64.two_pi /\
  PrimFloat.ltb b64.two_pi b64.two_pi = false /\
  b64.normalize_angle b64.two_pi = Ok PrimFloat.zero.
Proof.
  repeat split; vm_compute; reflexivity.
Qed.

(** The truncating remainder would have kept the sign of the argument. *)
Lemma fmod_keeps_sign_example : math.fmod (- (PI / 2)) (2 * PI) = - (PI / 2).
Proof.
  pose proof PI_RGT_0 as Hpi.
  unfold math.fmod, math.trunc.
  assert (Hq : - (PI / 2) / (2 * PI) = - (1 / 4)) by (field; lra).
  rewrite Hq.
  destruct (Rle_dec 0 (- (1 / 4))) as [H | _]; [lra |].
  assert (E : Zceil (- (1 / 4)) = 0%Z) by (apply Zceil_eq; lra).
  rewrite E. ring.
Qed.

(** ** Bearing *)

Lemma atan2_origin : math.atan2 0 0 = 0.
Proof.
  unfold math.atan2.
  repeat (destruct (Rlt_dec _ _) as [H | _]; [exfalso; lra |]).
  reflexivity.
Qed.

(** The bearing between two points with the same coordinates, whatever
    their representation. *)
Lemma angle_coincident (p q : PointLike) :
  unpack p = unpack q -> angle p q = Ok 0.
Proof.
  intros E. unfold angle, to_rad. rewrite E.
  destruct (unpack q) as [lo la].
  set (lam := math.radians lo). set (phi := math.radians la).
  replace (lam - lam) with 0 by ring.
  unfold math.sin, math.cos. rewrite sin_0, cos_0.
  replace (0 * cos phi) with 0 by ring.
  replace (cos phi * sin phi - sin phi * cos phi * 1) with 0 by ring.
  rewrite atan2_origin. apply normalize_angle_0.
Qed.

(** C4. The bearing from a point to itself is exactly 0: [angle(p, p)]
    returns, and returns 0. *)
Theorem angle_self_is_zero (p : PointLike) : angle p p = Ok 0.
Proof. apply angle_coincident. reflexivity. Qed.

Lemma angle_returns (p q : PointLike) : returns (angle p q).
Proof.
  unfold angle.
  destruct (to_rad p) as [lam1 phi1]. destruct (to_rad q) as [lam2 phi2].
  apply normalize_angle_returns.
Qed.

Lemma get_curr_angle_returns (point ref center : PointLike) :
  returns (get_curr_angle point ref center).
Proof.
  unfold get_curr_angle.
  apply returns_bind; [apply angle_returns | intros a0].
  apply returns_bind; [apply normalize_angle_returns | intros na].
  apply returns_bind; [apply angle_returns | intros a1].
  apply normalize_angle_returns.
Qed.

(** ** Destination *)

(** The argument of the arcsine in [move] is the inner product of two unit
    vectors. *)
Lemma destination_arcsin_domain (phi delta theta : R) :
  -1 <= sin phi * cos delta + cos phi * sin delta * cos theta <= 1.
Proof.
  pose proof (sin2_cos2 phi) as Hp. pose proof (sin2_cos2 delta) as Hd.
  pose proof (COS_bound theta) as [Hk1 Hk2].
  unfold Rsqr in Hp, Hd.
  set (s := sin phi) in *. set (c := cos phi) in *.
  set (b := sin delta) in *. set (a := cos delta) in *.
  set (k := cos theta) in *.
  assert (Hsq : (s * a + c * b * k) ^ 2 <= 1).
  { assert (E : 1 - (s * a + c * b * k) ^ 2
                = (s * b - c * a * k) ^ 2 + c ^ 2 * (1 - k ^ 2)).
    { transitivity ((s * s + c * c) * (b * b + a * a) - (s * a + c * b * k) ^ 2).
      - rewrite Hp, Hd. ring.
      - transitivity ((s * b - c * a * k) ^ 2
                      + c ^ 2 * ((b * b + a * a) * (1 - k ^ 2))).
        + ring.
        + rewrite Hd. ring. }
    assert (0 <= (s * b - c * a * k) ^ 2) by apply pow2_ge_0.
    assert (0 <= c ^ 2) by apply pow2_ge_0.
    assert (0 <= 1 - k ^ 2) by nra.
    assert (0 <= c ^ 2 * (1 - k ^ 2)) by (apply Rmult_le_pos; assumption).
    lra. }
  nra.
Qed.

Lemma math_asin_in_domain (x : R) :
  -1 <= x <= 1 -> math.asin x = Ok (Ratan.asin x).
Proof.
  intros [H1 H2]. unfold math.asin.
  destruct (Rle_dec (-1) x); [| contradiction].
  destruct (Rle_dec x 1); [reflexivity | contradiction].
Qed.

Lemma move_destination (start : PointLike) (theta d : R) :
  move start theta d = Ok (destination start theta d).
Proof.
  unfold move, destination, to_rad, to_deg.
  destruct (unpack start) as [lo la]. simpl.
  unfold math.sin, math.cos.
  rewrite math_asin_in_domain by apply destination_arcsin_domain.
  reflexivity.
Qed.

(** ** Array operations as maps *)

Lemma map2_map_map {A : Type} (f : R -> R -> R) (g h : A -> R) (l : list A) :
  np.map2 f (map g l) (map h l) = map (fun x => f (g x) (h x)) l.
Proof.
  induction l as [| x l IH]; simpl; [reflexivity |].
  rewrite IH. reflexivity.
Qed.

Lemma combine_map_map {A B C : Type} (g : A -> B) (h : A -> C) (l : list A) :
  combine (map g l) (map h l) = map (fun x => (g x, h x)) l.
Proof.
  induction l as [| x l IH]; simpl; [reflexivity |].
  rewrite IH. reflexivity.
Qed.

Lemma arange0_length (n : Z) : List.length (np.arange0 n) = Z.to_nat n.
Proof. unfold np.arange0. rewrite length_map, length_seq. reflexivity. Qed.


(** ** Circle sampling *)

(** The circle is the destination formula mapped over the sampled
    bearings. *)
Lemma vectorized_circle_map (center : PointLike) (dist : R) (n : Z) :
  vectorized_circle center dist (Some n) =
  map (fun k => destination center (2 * PI * IZR k / IZR n) dist)
      (np.arange0 n).
Proof.
  unfold vectorized_circle, destination, to_rad.
  destruct (unpack center) as [lo la]. simpl fst; simpl snd.
  unfold np.arcsin, np.arctan2, np.sin, np.cos, np.rad2deg.
  rewrite !map_map.
  rewrite map2_map_map, !map_map, combine_map_map.
  reflexivity.
Qed.




(** ** Haversine distance *)

(** The quantity under the square root, as a sum of two squares. *)
Lemma haversine_arg_split (phi1 phi2 dlam : R) :
  hav (phi2 - phi1) + cos phi1 * cos phi2 * hav dlam =
  (sin ((phi2 - phi1) / 2) * cos (dlam / 2)) ^ 2
  + (cos ((phi1 + phi2) / 2) * sin (dlam / 2)) ^ 2.
Proof.
  unfold hav.
  set (u := (phi2 - phi1) / 2). set (m := (phi1 + phi2) / 2).
  set (v := dlam / 2).
  replace phi1 with (m - u) by (unfold m, u; field).
  replace phi2 with (m + u) by (unfold m, u; field).
  rewrite cos_minus, cos_plus.
  pose proof (sin2_cos2 u) as Hu. pose proof (sin2_cos2 m) as Hm.
  pose proof (sin2_cos2 v) as Hv. unfold Rsqr in *.
  assert (Hcu : cos u * cos u = 1 - sin u * sin u) by lra.
  assert (Hsm : sin m * sin m = 1 - cos m * cos m) by lra.
  assert (Hcv : cos v * cos v = 1 - sin v * sin v) by lra.
  transitivity (sin u ^ 2
                + (cos m * cos m * (cos u * cos u)
                   - sin m * sin m * (sin u * sin u)) * sin v ^ 2);
    [ring |].
  transitivity (sin u * sin u * (cos v * cos v)
                + cos m * cos m * (sin v * sin v)); [| ring].
  rewrite Hcu, Hsm, Hcv. ring.
Qed.

Lemma haversine_arg_bounds (phi1 phi2 dlam : R) :
  0 <= hav (phi2 - phi1) + cos phi1 * cos phi2 * hav dlam <= 1.
Proof.
  rewrite haversine_arg_split.
  set (u := (phi2 - phi1) / 2). set (m := (phi1 + phi2) / 2).
  set (v := dlam / 2).
  pose proof (sin2_cos2 u) as Hu. pose proof (sin2_cos2 m) as Hm.
  pose proof (sin2_cos2 v) as Hv. unfold Rsqr in *.
  assert (0 <= (sin u * cos v) ^ 2) by apply pow2_ge_0.
  assert (0 <= (cos m * sin v) ^ 2) by apply pow2_ge_0.
  split; [lra |].
  assert (H1 : (sin u * cos v) ^ 2 <= cos v * cos v).
  { replace ((sin u * cos v) ^ 2) with ((sin u * sin u) * (cos v * cos v))
      by ring.
    assert (0 <= cos u * cos u) by nra.
    assert (0 <= cos v * cos v) by nra. nra. }
  assert (H2 : (cos m * sin v) ^ 2 <= sin v * sin v).
  { replace ((cos m * sin v) ^ 2) with ((cos m * cos m) * (sin v * sin v))
      by ring.
    assert (0 <= sin m * sin m) by nra.
    assert (0 <= sin v * sin v) by nra. nra. }
  lra.
Qed.

(** The two-argument arctangent of the code is the arcsine of the
    haversine formula. *)
Lemma atan2_sqrt_asin (a : R) :
  0 <= a <= 1 ->
  math.atan2 (sqrt a) (sqrt (1 - a)) = Ratan.asin (sqrt a).
Proof.
  intros [H0 H1]. unfold math.atan2.
  destruct (Req_dec_T a 1) as [-> | Hne].
  - replace (1 - 1) with 0 by ring. rewrite sqrt_0, sqrt_1, asin_1.
    destruct (Rlt_dec 0 0); [lra |].
    destruct (Rlt_dec 0 1); [reflexivity | lra].
  - assert (Hs : 0 < sqrt (1 - a)) by (apply sqrt_lt_R0; lra).
    destruct (Rlt_dec 0 (sqrt (1 - a))); [| contradiction].
    assert (Hsa : 0 <= sqrt a < 1).
    { split; [apply sqrt_pos |]. rewrite <- sqrt_1. apply sqrt_lt_1; lra. }
    rewrite asin_atan by lra.
    rewrite Rsqr_sqrt by exact H0. reflexivity.
Qed.

(** Unpacking the transposed array of a non-empty list of points gives
    the longitudes and the latitudes, in radians. *)
Lemma unpack_transposed_points (c : R * R) (rest : list (R * R)) :
  np.unpack2 (np.transpose (np.deg2rad_array (np.array_of_pairs (c :: rest))))
  = Ok (map (fun q => math.radians (fst q)) (c :: rest),
        map (fun q => math.radians (snd q)) (c :: rest)).
Proof.
  simpl. unfold np.unpack2. simpl. rewrite !map_map. simpl. reflexivity.
Qed.

Lemma vectorized_distance_nonempty (ref : PointLike) (points : list (R * R)) :
  points <> [] ->
  vectorized_distance ref points = Ok (map (haversine_km (unpack ref)) points).
Proof.
  intros Hne. destruct points as [| c rest]; [contradiction |].
  unfold vectorized_distance.
  rewrite unpack_transposed_points. cbn [bind].
  unfold to_rad. destruct (unpack ref) as [lo la].
  unfold np.arctan2, np.sqrt, np.sin, np.cos.
  rewrite !map_map.
  rewrite !map2_map_map, !map_map.
  f_equal. apply map_ext. intros q.
  unfold haversine_km, hav, math.sin, math.cos. cbn [fst snd].
  rewrite atan2_sqrt_asin by apply haversine_arg_bounds.
  ring.
Qed.

(** C8. On the empty list [vectorized_distance] raises a [ValueError]
    (unpacking an array of shape (0,) into two names) where an empty
    result is expected; on every non-empty list it returns, in order, the
    haversine distance on the sphere of radius 6371 km from the reference
    to each point. *)
Theorem vectorized_distance_empty_raises (ref : PointLike) :
  vectorized_distance ref [] = Raise ValueError /\
  forall points : list (R * R), points <> [] ->
    vectorized_distance ref points
    = Ok (map (haversine_km (unpack ref)) points).
Proof.
  split; [reflexivity | apply vectorized_distance_nonempty].
Qed.

Lemma vectorized_distance_empty_raises_witness :
  vectorized_distance (Coords (2, 48)) [(0, 51); (13, 52)]
  = Ok [haversine_km (2, 48) (0, 51); haversine_km (2, 48) (13, 52)].
Proof.
  destruct (vectorized_distance_empty_raises (Coords (2, 48))) as [_ H].
  apply (H [(0, 51); (13, 52)]). discriminate.
Defined.

(** ** Construction does not validate *)

(** C2, amended. Construction does not validate and never fails: for any
    two numbers, in range or not, [Point(lon, lat)] returns a new object
    that holds exactly these two values, and [Point.from_latlon(lat, lon)]
    returns the same object. *)
Theorem Point_new_does_not_validate (lon0 lat0 : R) (next : nat) :
  exists p : Point,
    Point_new lon0 lat0 next = Ok (p, S next) /\
    from_latlon lat0 lon0 next = Ok (p, S next) /\
    ident p = next /\ lon p = lon0 /\ lat p = lat0.
Proof.
  exists (mkPoint next lon0 lat0). repeat split.
Qed.

(** * Further properties of the kernel *)

(** ** Degrees and radians *)

Lemma radians_degrees (x : R) : math.radians (math.degrees x) = x.
Proof.
  unfold math.radians, math.degrees, math.pi. pose proof PI_RGT_0. field. lra.
Qed.

Lemma degrees_radians (x : R) : math.degrees (math.radians x) = x.
Proof.
  unfold math.radians, math.degrees, math.pi. pose proof PI_RGT_0. field. lra.
Qed.


Lemma radians_full_turn (x : R) :
  math.radians (x + 360) = math.radians x + 2 * PI.
Proof.
  unfold math.radians, math.pi. pose proof PI_RGT_0. field.
Qed.

Lemma degrees_plus (x y : R) :
  math.degrees (x + y) = math.degrees x + math.degrees y.
Proof. unfold math.degrees. ring. Qed.

Lemma degrees_le (x y : R) : x <= y -> math.degrees x <= math.degrees y.
Proof.
  intros H. unfold math.degrees, math.pi. pose proof PI_RGT_0 as Hpi.
  apply Rmult_le_compat_r; [| exact H].
  left. apply Rdiv_lt_0_compat; lra.
Qed.

Lemma degrees_lt (x y : R) : x < y -> math.degrees x < math.degrees y.
Proof.
  intros H. unfold math.degrees, math.pi. pose proof PI_RGT_0 as Hpi.
  apply Rmult_lt_compat_r; [| exact H].
  apply Rdiv_lt_0_compat; lra.
Qed.

Lemma degrees_PI (k : R) : math.degrees (k * PI) = k * 180.
Proof.
  unfold math.degrees, math.pi. pose proof PI_RGT_0 as Hpi. field. lra.
Qed.

Lemma delta_range (d lo hi : R) :
  lo * 6371 <= d <= hi * 6371 -> lo <= d / 6371 <= hi.
Proof.
  intros [H1 H2]. split.
  - apply Rmult_le_reg_r with 6371; [lra |].
    replace (d / 6371 * 6371) with d by field. lra.
  - apply Rmult_le_reg_r with 6371; [lra |].
    replace (d / 6371 * 6371) with d by field. lra.
Qed.


Lemma PI_gt_2 : 2 < PI.
Proof. pose proof PI2_1. lra. Qed.

Lemma PI_gt_3 : 3 < PI.
Proof. pose proof PI2_3_2. lra. Qed.

(** What [clear_of_poles] gives in exact arithmetic. *)
Lemma clear_of_poles_exact (lat d : R) :
  clear_of_poles lat d -> -90 < lat < 90 /\ 0 < d < PI * 6371.
Proof.
  intros (Hlat & Hd & _ & _). pose proof PI_gt_3. split; lra.
Qed.

Lemma clear_of_poles_48_100 : clear_of_poles 48 100.
Proof.
  pose proof PI_gt_2 as Hlo. pose proof PI_4 as Hhi.
  set (v := math.degrees (100 / 6371)).
  assert (Hv : v * PI = 100 / 6371 * 180).
  { unfold v, math.degrees, math.pi. field. lra. }
  assert (Hv' : 0 < v < 2) by nra.
  unfold clear_of_poles. fold v.
  repeat split; try lra;
    unfold Rabs; destruct (Rcase_abs _); lra.
Qed.

(** X1. [to_deg] and [to_rad] are inverse to each other: converting a
    point to radians and back to degrees, or the other way round, gives
    its coordinates again. *)
Theorem to_deg_to_rad_roundtrip (p : PointLike) :
  to_deg (Coords (to_rad p)) = unpack p /\
  to_rad (Coords (to_deg p)) = unpack p.
Proof.
  unfold to_deg, to_rad. destruct (unpack p) as [x y]. cbn [unpack].
  rewrite !degrees_radians, !radians_degrees. split; reflexivity.
Qed.

(** ** More on angle normalisation *)


Lemma normalize_angle_in_range (a v : R) :
  normalize_angle a = Ok v -> 0 <= v < 2 * PI.
Proof.
  rewrite normalize_angle_floor. intros H. injection H as <-.
  apply floor_remainder_bounds. pose proof PI_RGT_0. lra.
Qed.

Lemma normalize_angle_add_turns (a : R) (k : Z) :
  normalize_angle (a + IZR k * (2 * PI)) = normalize_angle a.
Proof.
  pose proof PI_RGT_0 as Hpi.
  rewrite !normalize_angle_floor.
  replace ((a + IZR k * (2 * PI)) / (2 * PI)) with (a / (2 * PI) + IZR k)
    by (field; lra).
  rewrite Zfloor_addz, plus_IZR. f_equal. ring.
Qed.

(** ** Range of the bearings *)

(** X3. [angle] always returns, and the bearing it returns lies between
    0 and [2 pi], both included. *)
Theorem angle_range_closed (p q : PointLike) :
  exists v, angle p q = Ok v /\ 0 <= v <= 2 * PI.
Proof.
  destruct (angle_returns p q) as [v Hv]. exists v. split; [exact Hv |].
  unfold angle in Hv.
  destruct (to_rad p), (to_rad q).
  apply normalize_angle_in_range in Hv. lra.
Qed.

Lemma get_curr_angle_in_range (point ref center : PointLike) :
  exists v, get_curr_angle point ref center = Ok v /\ 0 <= v < 2 * PI.
Proof.
  destruct (get_curr_angle_returns point ref center) as [v Hv].
  exists v. split; [exact Hv |].
  unfold get_curr_angle in Hv.
  destruct (angle center ref) as [a0 |]; [| discriminate].
  cbn [bind] in Hv.
  destruct (normalize_angle (a0 + math.pi / 2)) as [na |]; [| discriminate].
  cbn [bind] in Hv.
  destruct (angle ref point) as [a1 |]; [| discriminate].
  cbn [bind] in Hv. eapply normalize_angle_in_range; eassumption.
Qed.

(** X4. [get_curr_angle] always returns; the angle it returns lies
    between 0 and [2 pi], both included, and is the bearing from [ref] to
    [point] minus the bearing from [center] to [ref] minus a quarter
    turn, reduced modulo [2 pi]: the inner normalisation of the code does
    not change the result. *)
Theorem get_curr_angle_modulo_turn (point ref center : PointLike) :
  exists a0 a1 v,
    angle center ref = Ok a0 /\ angle ref point = Ok a1 /\
    get_curr_angle point ref center = Ok v /\
    normalize_angle (a1 - a0 - PI / 2) = Ok v /\
    0 <= v <= 2 * PI.
Proof.
  destruct (angle_returns center ref) as [a0 H0].
  destruct (angle_returns ref point) as [a1 H1].
  destruct (get_curr_angle_in_range point ref center) as (v & Hv & Hrange).
  exists a0, a1, v. repeat split; try assumption; try lra.
  unfold get_curr_angle in Hv. rewrite H0, H1 in Hv. cbn [bind] in Hv.
  rewrite normalize_angle_floor in Hv. cbn [bind] in Hv.
  rewrite <- Hv. unfold math.pi.
  set (k := Zfloor ((a0 + PI / 2) / (2 * PI))).
  replace (a1 - (a0 + PI / 2 - IZR k * (2 * PI)))
    with (a1 - a0 - PI / 2 + IZR k * (2 * PI)) by ring.
  symmetry. apply normalize_angle_add_turns.
Qed.

(** ** The two-argument arctangent *)

Lemma atan_nonpos (u : R) : u <= 0 -> atan u <= 0.
Proof.
  intros [H | ->]; [| rewrite atan_0; lra].
  apply atan_increasing in H. rewrite atan_0 in H. lra.
Qed.

Lemma atan_pos (u : R) : 0 < u -> 0 < atan u.
Proof. intros H. apply atan_increasing in H. rewrite atan_0 in H. exact H. Qed.

Lemma atan2_bound (y x : R) : - PI < math.atan2 y x <= PI.
Proof.
  pose proof PI_RGT_0 as Hpi.
  unfold math.atan2.
  destruct (Rlt_dec 0 x) as [Hx | Hx].
  - pose proof (atan_bound (y / x)). lra.
  - destruct (Rlt_dec x 0) as [Hx' | Hx'].
    + pose proof (atan_bound (y / x)) as Hb.
      destruct (Rle_dec 0 y) as [Hy | Hy].
      * assert (y / x <= 0).
        { unfold Rdiv. assert (/ x < 0) by (apply Rinv_lt_0_compat; lra). nra. }
        pose proof (atan_nonpos _ H). lra.
      * assert (0 < y / x).
        { unfold Rdiv. assert (/ x < 0) by (apply Rinv_lt_0_compat; lra). nra. }
        pose proof (atan_pos _ H). lra.
    + destruct (Rlt_dec 0 y); [lra |].
      destruct (Rlt_dec y 0); lra.
Qed.

Lemma sqrt_one_plus_sqr (y x r : R) :
  0 < x -> 0 <= r -> y * y + x * x = r * r -> sqrt (1 + (y / x)²) = r / x.
Proof.
  intros Hx Hr E.
  assert (Hrx : 0 <= r / x).
  { unfold Rdiv. apply Rmult_le_pos; [lra |]. left. apply Rinv_0_lt_compat. lra. }
  rewrite <- (sqrt_Rsqr (r / x)) by exact Hrx.
  f_equal. unfold Rsqr.
  replace (r / x * (r / x)) with ((r * r) / (x * x)) by (field; lra).
  rewrite <- E. field. lra.
Qed.

Lemma atan2_polar (y x r : R) :
  0 <= r -> y * y + x * x = r * r ->
  r * cos (math.atan2 y x) = x /\ r * sin (math.atan2 y x) = y.
Proof.
  intros Hr E. unfold math.atan2.
  destruct (Rlt_dec 0 x) as [Hx | Hx].
  - assert (Hr0 : 0 < r) by nra.
    rewrite cos_atan, sin_atan, (sqrt_one_plus_sqr y x r) by assumption.
    split; field; lra.
  - destruct (Rlt_dec x 0) as [Hx' | Hx'].
    + assert (Hr0 : 0 < r) by nra.
      assert (Hs : sqrt (1 + (y / x)²) = r / - x).
      { replace (y / x) with (- y / - x) by (field; lra).
        apply sqrt_one_plus_sqr; [lra | lra | nra]. }
      destruct (Rle_dec 0 y) as [Hy | Hy].
      * rewrite neg_cos, neg_sin, cos_atan, sin_atan, Hs.
        split; field; lra.
      * unfold Rminus. rewrite cos_plus, sin_plus, cos_neg, sin_neg, cos_PI, sin_PI.
        rewrite cos_atan, sin_atan, Hs.
        split; field; lra.
    + assert (x = 0) by lra. subst x.
      destruct (Rlt_dec 0 y) as [Hy | Hy].
      * rewrite cos_PI2, sin_PI2. split; nra.
      * destruct (Rlt_dec y 0) as [Hy' | Hy'].
        -- rewrite cos_neg, sin_neg, cos_PI2, sin_PI2. split; nra.
        -- assert (y = 0) by lra. subst y. rewrite cos_0, sin_0.
           assert (r = 0) by nra. subst r. split; ring.
Qed.

Lemma angle_unique (a b : R) :
  - PI < a <= PI -> - PI < b <= PI ->
  cos a = cos b -> sin a = sin b -> a = b.
Proof.
  intros Ha Hb Hc Hs.
  pose proof PI_RGT_0 as Hpi.
  assert (Hsd : sin (a - b) = 0).
  { rewrite sin_minus, Hc, Hs. ring. }
  assert (Hcd : cos (a - b) = 1).
  { rewrite cos_minus, Hc, Hs. pose proof (sin2_cos2 b) as H. unfold Rsqr in H. lra. }
  destruct (sin_eq_0_0 _ Hsd) as [k Hk].
  assert (Hk1 : (-2 < k < 2)%Z).
  { split; apply lt_IZR; nra. }
  assert (Hcase : k = (-1)%Z \/ k = 0%Z \/ k = 1%Z) by lia.
  destruct Hcase as [-> | [-> | ->]].
  - rewrite Hk in Hcd. replace (-1 * PI) with (- PI) in Hcd by ring.
    rewrite cos_neg, cos_PI in Hcd. lra.
  - lra.
  - rewrite Hk in Hcd. replace (1 * PI) with PI in Hcd by ring.
    rewrite cos_PI in Hcd. lra.
Qed.

Lemma atan2_of_polar (r t : R) :
  0 < r -> - PI < t <= PI -> math.atan2 (r * sin t) (r * cos t) = t.
Proof.
  intros Hr Ht.
  destruct (atan2_polar (r * sin t) (r * cos t) r) as [Hc Hs]; [lra | |].
  { pose proof (sin2_cos2 t) as H. unfold Rsqr in H.
    replace (r * sin t * (r * sin t) + r * cos t * (r * cos t))
      with (r * r * (sin t * sin t + cos t * cos t)) by ring.
    rewrite H. ring. }
  apply angle_unique; [apply atan2_bound | exact Ht | |].
  - apply Rmult_eq_reg_l with r; lra.
  - apply Rmult_eq_reg_l with r; lra.
Qed.

Lemma atan2_zero_nonneg (x : R) : 0 <= x -> math.atan2 0 x = 0.
Proof.
  intros Hx. unfold math.atan2.
  destruct (Rlt_dec 0 x).
  - unfold Rdiv. rewrite Rmult_0_l. apply atan_0.
  - destruct (Rlt_dec x 0); [lra |].
    destruct (Rlt_dec 0 0); [lra |]. reflexivity.
Qed.




Lemma sin_full_turn (x : R) : sin (x + 2 * PI) = sin x.
Proof. rewrite sin_plus, cos_2PI, sin_2PI. ring. Qed.

Lemma cos_full_turn (x : R) : cos (x + 2 * PI) = cos x.
Proof. rewrite cos_plus, cos_2PI, sin_2PI. ring. Qed.


(** ** Bearings in the cardinal directions *)





(** X7. The bearing does not change when the longitude of either point is
    shifted by 360 degrees: longitudes outside [(-180, 180]] are read
    modulo a full turn. *)
Theorem angle_longitude_period (p : PointLike) (lo la : R) :
  angle p (Coords (lo + 360, la)) = angle p (Coords (lo, la)) /\
  angle (Coords (lo + 360, la)) p = angle (Coords (lo, la)) p.
Proof.
  unfold angle, to_rad. destruct (unpack p) as [lo1 la1]. cbn [unpack].
  rewrite radians_full_turn. unfold math.sin, math.cos.
  split.
  - replace (math.radians lo + 2 * PI - math.radians lo1)
      with (math.radians lo - math.radians lo1 + 2 * PI) by ring.
    rewrite sin_full_turn, cos_full_turn. reflexivity.
  - replace (math.radians lo1 - (math.radians lo + 2 * PI))
      with (- (math.radians lo - math.radians lo1 + 2 * PI)) by ring.
    replace (math.radians lo1 - math.radians lo)
      with (- (math.radians lo - math.radians lo1)) by ring.
    rewrite !sin_neg, !cos_neg, sin_full_turn, cos_full_turn. reflexivity.
Qed.

(** ** The destination formula *)

(** X8. Moving by a distance of 0 returns the coordinates of the start,
    whatever the bearing, when the start latitude is within
    [[-90, 90]]. *)
Theorem move_zero_distance (start : PointLike) (theta : R) :
  -90 <= snd (unpack start) <= 90 ->
  move start theta 0 = Ok (unpack start).
Proof.
  intros Hlat. pose proof PI_RGT_0 as Hpi.
  rewrite move_destination. f_equal. unfold destination.
  destruct (unpack start) as [lo la]. cbn [fst snd] in *.
  replace (0 / 6371) with 0 by (unfold Rdiv; ring).
  rewrite sin_0, cos_0.
  assert (Hphi : - (PI / 2) <= math.radians la <= PI / 2)
    by (unfold math.radians, math.pi; nra).
  replace (sin (math.radians la) * 1 + cos (math.radians la) * 0 * cos theta)
    with (sin (math.radians la)) by ring.
  rewrite asin_sin by exact Hphi.
  replace (0 * sin theta * cos (math.radians la)) with 0 by ring.
  rewrite atan2_zero_nonneg.
  - rewrite Rplus_0_r, !degrees_radians. reflexivity.
  - pose proof (sin2_cos2 (math.radians la)) as H. unfold Rsqr in H.
    pose proof (Rle_0_sqr (cos (math.radians la))) as H'. unfold Rsqr in H'.
    lra.
Qed.

Lemma move_zero_distance_witness :
  move (Coords (2, 48)) 1 0 = Ok (2, 48).
Proof.
  apply (move_zero_distance (Coords (2, 48)) 1).
  cbn [unpack snd]. lra.
Defined.

(** X9. Whenever [move] returns, the latitude it returns lies in
    [[-90, 90]] and the longitude differs from the start longitude by at
    most 180 degrees either way: it is not brought back into
    [(-180, 180]]. *)
Theorem move_result_range (start : PointLike) (theta d lon2 lat2 : R) :
  move start theta d = Ok (lon2, lat2) ->
  -90 <= lat2 <= 90 /\
  -180 <= lon2 - fst (unpack start) <= 180.
Proof.
  unfold move, to_rad, to_deg.
  destruct (unpack start) as [lo la]. cbn [fst snd unpack].
  destruct (math.asin _) as [phi2 |] eqn:Hasin; [| discriminate].
  cbn [bind]. intros H. injection H as <- <-.
  unfold math.asin in Hasin.
  destruct (Rle_dec (-1) _); [| discriminate].
  destruct (Rle_dec _ 1); [| discriminate].
  injection Hasin as <-.
  split.
  - match goal with |- context [Ratan.asin ?x] =>
      pose proof (asin_bound x) as [Hb1 Hb2]; set (a := Ratan.asin x) in * end.
    apply degrees_le in Hb1, Hb2.
    replace (- (PI / 2)) with (- (1 / 2) * PI) in Hb1 by field.
    replace (PI / 2) with (1 / 2 * PI) in Hb2 by field.
    rewrite degrees_PI in Hb1, Hb2. lra.
  - match goal with |- context [math.atan2 ?y ?x] =>
      pose proof (atan2_bound y x) as [Hb1 Hb2];
      set (a := math.atan2 y x) in * end.
    rewrite degrees_plus, degrees_radians.
    apply degrees_lt in Hb1. apply degrees_le in Hb2.
    replace (- PI) with (- 1 * PI) in Hb1 by ring.
    rewrite degrees_PI in Hb1.
    assert (E : math.degrees PI = 1 * 180)
      by (rewrite <- degrees_PI; f_equal; ring).
    lra.
Qed.

Lemma move_result_range_witness :
  -90 <= snd (destination (Coords (2, 48)) 1 100) <= 90 /\
  -180 <= fst (destination (Coords (2, 48)) 1 100)
          - fst (unpack (Coords (2, 48))) <= 180.
Proof.
  apply (move_result_range (Coords (2, 48)) 1 100).
  rewrite move_destination.
  destruct (destination (Coords (2, 48)) 1 100). reflexivity.
Defined.

(** X10. Heading east ([pi/2]) from a point of the equator stays on the
    equator and adds [d / 6371] radians, in degrees, to the longitude, for
    any distance up to half the circumference; the sum is returned as it
    is, also when it exceeds 180. *)
Theorem move_east_on_equator (start : PointLike) (d : R) :
  snd (unpack start) = 0 -> 0 <= d <= PI * 6371 ->
  move start (PI / 2) d
  = Ok (fst (unpack start) + math.degrees (d / 6371), 0).
Proof.
  intros Hlat Hd. pose proof PI_RGT_0 as Hpi.
  rewrite move_destination. f_equal. unfold destination.
  destruct (unpack start) as [lo la]. cbn [fst snd] in *. subst la.
  replace (math.radians 0) with 0 by (unfold math.radians; ring).
  rewrite sin_0, cos_0, cos_PI2, sin_PI2.
  set (delta := d / 6371).
  assert (Hdelta : 0 <= delta <= PI) by (apply delta_range; lra).
  replace (0 * cos delta + 1 * sin delta * 0) with 0 by ring.
  rewrite asin_0, sin_0.
  replace (sin delta * 1 * 1) with (1 * sin delta) by ring.
  replace (cos delta - 0 * 0) with (1 * cos delta) by ring.
  rewrite atan2_of_polar by lra.
  rewrite degrees_plus, degrees_radians.
  f_equal. unfold math.degrees. ring.
Qed.

Lemma move_east_on_equator_witness :
  move (Coords (179, 0)) (PI / 2) 6371 = Ok (179 + math.degrees (6371 / 6371), 0).
Proof.
  apply (move_east_on_equator (Coords (179, 0)) 6371); [reflexivity |].
  pose proof PI_gt_2. lra.
Defined.

(** X11. Heading north (bearing 0) from a start at least 0.1 degree away
    from the south pole keeps the longitude and adds [d / 6371] radians,
    in degrees, to the latitude, as long as the result stays at least 0.1
    degree away from the north pole. *)
Theorem move_north_clear_of_poles (start : PointLike) (d : R) :
  0 <= d -> -89.9 <= snd (unpack start) ->
  snd (unpack start) + math.degrees (d / 6371) <= 89.9 ->
  move start 0 d
  = Ok (fst (unpack start), snd (unpack start) + math.degrees (d / 6371)).
Proof.
  intros Hd Hlo' Hhi'. pose proof PI_RGT_0 as Hpi.
  assert (Hlo : -90 <= snd (unpack start)) by lra.
  assert (Hhi : snd (unpack start) + math.degrees (d / 6371) <= 90) by lra.
  clear Hlo' Hhi'.
  rewrite move_destination. f_equal. unfold destination.
  destruct (unpack start) as [lo la]. cbn [fst snd] in *.
  set (delta := d / 6371) in *. set (phi := math.radians la).
  assert (Hdelta : 0 <= delta).
  { unfold delta. apply Rmult_le_reg_r with 6371; [lra |].
    replace (d / 6371 * 6371) with d by field. lra. }
  assert (Hphi : - (PI / 2) <= phi).
  { unfold phi, math.radians, math.pi. nra. }
  assert (Hsum : phi + delta <= PI / 2).
  { assert (H : math.radians (la + math.degrees delta) <= math.radians 90).
    { unfold math.radians, math.pi. apply Rmult_le_compat_r; [| lra].
      left. apply Rdiv_lt_0_compat; lra. }
    replace (math.radians (la + math.degrees delta)) with (phi + delta) in H.
    - unfold math.radians, math.pi in H. lra.
    - unfold phi. rewrite <- (radians_degrees delta) at 1.
      unfold math.radians. ring. }
  rewrite sin_0, cos_0.
  replace (sin phi * cos delta + cos phi * sin delta * 1)
    with (sin (phi + delta)) by (rewrite sin_plus; ring).
  rewrite asin_sin by lra.
  replace (sin delta * 0 * cos phi) with 0 by ring.
  rewrite atan2_zero_nonneg.
  - rewrite Rplus_0_r, degrees_plus. unfold phi.
    rewrite !degrees_radians. reflexivity.
  - replace (cos delta) with (cos ((phi + delta) - phi)) by (f_equal; ring).
    rewrite cos_minus.
    replace (cos (phi + delta) * cos phi + sin (phi + delta) * sin phi
             - sin phi * sin (phi + delta))
      with (cos (phi + delta) * cos phi) by ring.
    apply Rmult_le_pos; apply cos_ge_0; lra.
Qed.

Lemma move_north_clear_of_poles_witness :
  move (Coords (2, 0)) 0 6371 = Ok (2, 0 + math.degrees (6371 / 6371)).
Proof.
  apply (move_north_clear_of_poles (Coords (2, 0)) 6371);
    cbn [unpack snd]; try lra.
  replace (6371 / 6371) with ((1 / PI) * PI)
    by (pose proof PI_RGT_0; field; lra).
  rewrite degrees_PI. pose proof PI_gt_3 as Hpi.
  assert (1 / PI <= 1 / 3).
  { unfold Rdiv. rewrite !Rmult_1_l. apply Rinv_le_contravar; lra. }
  lra.
Defined.

(** X12. The destination does not change when a full turn is added to the
    bearing. *)
Theorem move_bearing_period (start : PointLike) (theta d : R) :
  move start (theta + 2 * PI) d = move start theta d.
Proof.
  rewrite !move_destination. unfold destination.
  rewrite sin_full_turn, cos_full_turn. reflexivity.
Qed.



(** ** Destination, then bearing and distance *)

Section DirectInverse.

Variables phi delta theta : R.

(** The sine of the destination latitude, and the two arguments of the
    arctangent that gives the longitude offset. *)
Local Notation "'dS'" :=
  (sin phi * cos delta + cos phi * sin delta * cos theta) (only parsing).
Local Notation "'dA'" := (sin delta * sin theta * cos phi) (only parsing).
Local Notation "'dB'" := (cos delta - sin phi * dS) (only parsing).

Lemma destination_cos_lat_sqr : sqrt (1 - dS²) * sqrt (1 - dS²) = 1 - dS * dS.
Proof.
  pose proof (destination_arcsin_domain phi delta theta) as H.
  rewrite sqrt_sqrt; [reflexivity |].
  unfold Rsqr. nra.
Qed.

Lemma destination_offset_norm :
  dA * dA + dB * dB
  = (cos phi * sqrt (1 - dS²)) * (cos phi * sqrt (1 - dS²)).
Proof.
  replace (cos phi * sqrt (1 - dS²) * (cos phi * sqrt (1 - dS²)))
    with (cos phi * cos phi * (sqrt (1 - dS²) * sqrt (1 - dS²))) by ring.
  rewrite destination_cos_lat_sqr.
  pose proof (sin2_cos2 phi) as Hp. pose proof (sin2_cos2 delta) as Hd.
  pose proof (sin2_cos2 theta) as Ht. unfold Rsqr in Hp, Hd, Ht.
  set (s := sin phi) in *. set (c := cos phi) in *.
  set (b := sin delta) in *. set (a := cos delta) in *.
  set (m := sin theta) in *. set (k := cos theta) in *.
  assert (HB : a - s * (s * a + c * b * k) = c * (c * a - s * b * k)).
  { transitivity (a * (1 - s * s) - s * c * b * k); [ring |].
    replace (1 - s * s) with (c * c) by lra. ring. }
  rewrite HB.
  assert (E : b * b * (m * m) + (c * a - s * b * k) * (c * a - s * b * k)
              = 1 - (s * a + c * b * k) * (s * a + c * b * k)).
  { apply Rminus_diag_uniq.
    transitivity (b * b * (m * m)
                  + (a * a + b * b * (k * k)) * (s * s + c * c) - 1);
      [ring |].
    rewrite Hp.
    transitivity (b * b * (m * m + k * k) + a * a - 1); [ring |].
    rewrite Ht. lra. }
  rewrite <- E. ring.
Qed.

(** The longitude offset, in polar form. *)
Lemma destination_offset_polar :
  0 <= cos phi ->
  cos phi * (sqrt (1 - dS²) * cos (math.atan2 dA dB)) = dB /\
  cos phi * (sqrt (1 - dS²) * sin (math.atan2 dA dB)) = dA.
Proof.
  intros Hc.
  destruct (atan2_polar dA dB (cos phi * sqrt (1 - dS²))) as [H1 H2].
  - apply Rmult_le_pos; [exact Hc | apply sqrt_pos].
  - apply destination_offset_norm.
  - split; [rewrite <- H1 at 2 | rewrite <- H2 at 2]; ring.
Qed.

End DirectInverse.


(** ** Haversine distance: bounds, symmetry, round trip *)

Lemma hav_cos (x : R) : hav x = (1 - cos x) / 2.
Proof.
  unfold hav. replace x with (2 * (x / 2)) at 2 by field.
  rewrite cos_2a_sin. field.
Qed.

Lemma hav_opp (x : R) : hav (- x) = hav x.
Proof. rewrite !hav_cos, cos_neg. reflexivity. Qed.

Lemma hav_full_turn (x : R) : hav (x + 2 * PI) = hav x.
Proof. rewrite !hav_cos, cos_full_turn. reflexivity. Qed.

Lemma haversine_km_sym (p q : R * R) : haversine_km p q = haversine_km q p.
Proof.
  unfold haversine_km.
  replace (math.radians (snd p) - math.radians (snd q))
    with (- (math.radians (snd q) - math.radians (snd p))) by ring.
  replace (math.radians (fst p) - math.radians (fst q))
    with (- (math.radians (fst q) - math.radians (fst p))) by ring.
  rewrite !hav_opp.
  rewrite (Rmult_comm (cos (math.radians (snd q)))). reflexivity.
Qed.

Lemma asin_nonneg (x : R) : 0 <= x <= 1 -> 0 <= Ratan.asin x.
Proof.
  intros Hx. pose proof PI_RGT_0 as Hpi.
  destruct (Rle_lt_dec 0 (Ratan.asin x)) as [H | H]; [exact H | exfalso].
  pose proof (asin_bound x) as Hb.
  assert (Hs : sin (Ratan.asin x) < 0) by (apply sin_lt_0_var; lra).
  rewrite sin_asin in Hs by lra. lra.
Qed.

Lemma haversine_km_bounds (p q : R * R) :
  0 <= haversine_km p q <= PI * 6371.
Proof.
  unfold haversine_km.
  match goal with |- context [sqrt ?a] =>
    assert (Ha : 0 <= a <= 1) by apply haversine_arg_bounds;
    set (x := a) in * end.
  assert (Hs : 0 <= sqrt x <= 1).
  { split; [apply sqrt_pos |]. rewrite <- sqrt_1. apply sqrt_le_1; lra. }
  pose proof (asin_nonneg _ Hs). pose proof (asin_bound (sqrt x)). lra.
Qed.

Lemma haversine_km_same (p : R * R) : haversine_km p p = 0.
Proof.
  unfold haversine_km, hav.
  replace (math.radians (snd p) - math.radians (snd p)) with 0 by ring.
  replace (math.radians (fst p) - math.radians (fst p)) with 0 by ring.
  replace (0 / 2) with 0 by field. rewrite sin_0.
  replace (0 ^ 2 + cos (math.radians (snd p)) * cos (math.radians (snd p)) * 0 ^ 2)
    with 0 by ring.
  rewrite sqrt_0, asin_0. ring.
Qed.

(** The haversine distance from a start of latitude within [[-90, 90]] to
    its destination is the distance moved, up to half the
    circumference. *)
Lemma haversine_of_destination (start : PointLike) (theta d : R) :
  -90 <= snd (unpack start) <= 90 ->
  0 <= d <= PI * 6371 ->
  haversine_km (unpack start) (destination start theta d) = d.
Proof.
  intros Hlat Hd. pose proof PI_RGT_0 as Hpi.
  unfold haversine_km, destination.
  destruct (unpack start) as [lo la]. cbn [fst snd] in *.
  set (phi := math.radians la). set (lam := math.radians lo).
  set (delta := d / 6371).
  assert (Hphi : - (PI / 2) <= phi <= PI / 2)
    by (unfold phi, math.radians, math.pi; nra).
  assert (Hc : 0 <= cos phi) by (apply cos_ge_0; lra).
  assert (Hdelta : 0 <= delta <= PI) by (apply delta_range; lra).
  pose proof (destination_arcsin_domain phi delta theta) as HS.
  rewrite !radians_degrees.
  rewrite sin_asin by exact HS.
  destruct (destination_offset_polar phi delta theta) as [HB _]; [lra |].
  set (S := sin phi * cos delta + cos phi * sin delta * cos theta) in *.
  set (Dl := math.atan2 (sin delta * sin theta * cos phi)
                        (cos delta - sin phi * S)) in *.
  replace (lam + Dl - lam) with Dl by ring.
  assert (Ha : hav (Ratan.asin S - phi)
               + cos phi * cos (Ratan.asin S) * hav Dl
               = sin (delta / 2) ^ 2).
  { change (sin (delta / 2) ^ 2) with (hav delta).
    rewrite !hav_cos, cos_minus, sin_asin, cos_asin by exact HS.
    transitivity ((1 - sin phi * S
                   - cos phi * (sqrt (1 - S²) * cos Dl)) / 2); [field |].
    rewrite HB. field. }
  rewrite Ha.
  assert (Hh : 0 <= sin (delta / 2)) by (apply sin_ge_0; lra).
  replace (sin (delta / 2) ^ 2) with ((sin (delta / 2))²)
    by (unfold Rsqr; ring).
  rewrite sqrt_Rsqr by exact Hh.
  rewrite asin_sin by lra.
  unfold delta. field.
Qed.




(** X15. Within the margins of [clear_of_poles], for any distance up to
    19000 km and any bearing, [move] returns and the batch (haversine)
    distance from the start to the point it returns is the distance that
    was given. *)
Theorem haversine_distance_of_destination (start : PointLike) (theta d : R) :
  clear_of_poles (snd (unpack start)) d ->
  (pt <- move start theta d ;; vectorized_distance start [pt]) = Ok [d].
Proof.
  intros Hclear.
  destruct (clear_of_poles_exact _ _ Hclear) as [Hlat Hd].
  rewrite move_destination. cbn [bind].
  rewrite vectorized_distance_nonempty by discriminate.
  cbn [map]. rewrite haversine_of_destination by lra. reflexivity.
Qed.

Lemma haversine_distance_of_destination_witness :
  (pt <- move (Coords (2, 48)) 4 100 ;;
   vectorized_distance (Coords (2, 48)) [pt]) = Ok [100].
Proof.
  apply (haversine_distance_of_destination (Coords (2, 48)) 4 100).
  apply clear_of_poles_48_100.
Defined.

(** X16. The batch distance is symmetric: from [a] to [b] it is what it is
    from [b] to [a]. *)
Theorem vectorized_distance_symmetric (a b : R * R) :
  vectorized_distance (Coords a) [b] = vectorized_distance (Coords b) [a].
Proof.
  rewrite !vectorized_distance_nonempty by discriminate.
  cbn [map unpack]. rewrite haversine_km_sym. reflexivity.
Qed.

(** X18. The batch distance from a point to its own coordinates is 0. *)
Theorem vectorized_distance_to_itself (p : PointLike) :
  vectorized_distance p [unpack p] = Ok [0].
Proof.
  rewrite vectorized_distance_nonempty by discriminate.
  cbn [map]. rewrite haversine_km_same. reflexivity.
Qed.

(** X19. The batch distance does not change when the longitude of a point
    is shifted by 360 degrees. *)
Theorem vectorized_distance_longitude_period (ref : PointLike) (lo la : R) :
  vectorized_distance ref [(lo + 360, la)] = vectorized_distance ref [(lo, la)].
Proof.
  rewrite !vectorized_distance_nonempty by discriminate.
  cbn [map]. unfold haversine_km. cbn [fst snd].
  rewrite radians_full_turn.
  replace (math.radians lo + 2 * PI - math.radians (fst (unpack ref)))
    with (math.radians lo - math.radians (fst (unpack ref)) + 2 * PI) by ring.
  rewrite hav_full_turn. reflexivity.
Qed.

(** ** The sampled circle *)

Lemma vectorized_circle_length (center : PointLike) (dist : R) (n : Z) :
  List.length (vectorized_circle center dist (Some n)) = Z.to_nat n.
Proof. rewrite vectorized_circle_map, length_map. apply arange0_length. Qed.

Lemma vectorized_circle_default (center : PointLike) (dist : R) :
  vectorized_circle center dist None
  = vectorized_circle center dist (Some (Zfloor (2 * PI * dist))).
Proof.
  replace (2 * PI * dist) with (2 * PI * dist / 1) by field. reflexivity.
Qed.

(** X20. Circle membership: when the circle stays within the margins of
    [clear_of_poles] and has at least one point, the batch distance from
    the center to the points of the circle is the radius, for every
    point. *)
Theorem circle_points_at_radius (center : PointLike) (dist : R) (n : Z) :
  clear_of_poles (snd (unpack center)) dist ->
  (1 <= n)%Z ->
  vectorized_distance center (vectorized_circle center dist (Some n))
  = Ok (repeat dist (Z.to_nat n)).
Proof.
  intros Hclear Hn.
  destruct (clear_of_poles_exact _ _ Hclear) as [Hlat Hd].
  rewrite vectorized_distance_nonempty.
  - f_equal. rewrite vectorized_circle_map, map_map.
    rewrite <- (arange0_length n).
    induction (np.arange0 n) as [| k l IH]; [reflexivity |].
    cbn [map List.length repeat]. rewrite IH.
    rewrite haversine_of_destination by lra. reflexivity.
  - intros E. apply (f_equal (@List.length _)) in E.
    rewrite vectorized_circle_length in E. simpl in E. lia.
Qed.

Lemma circle_points_at_radius_witness :
  vectorized_distance (Coords (2, 48))
    (vectorized_circle (Coords (2, 48)) 100 (Some 4%Z))
  = Ok (repeat 100 (Z.to_nat 4)).
Proof.
  apply (circle_points_at_radius (Coords (2, 48)) 100 4);
    cbn [unpack snd]; [apply clear_of_poles_48_100 | lia].
Defined.





(** X22. Without [n_points] and for a radius that is not negative, the
    number of points is the circumference [2 pi dist] in kilometres,
    rounded down. *)
Theorem default_circle_count (center : PointLike) (dist : R) :
  0 <= dist ->
  INR (List.length (vectorized_circle center dist None)) <= 2 * PI * dist
  /\ 2 * PI * dist
     < INR (List.length (vectorized_circle center dist None)) + 1.
Proof.
  intros Hd. pose proof PI_RGT_0 as Hpi.
  rewrite vectorized_circle_default, vectorized_circle_length.
  pose proof (Zfloor_bound (2 * PI * dist)) as Hb.
  assert (H0 : (0 <= Zfloor (2 * PI * dist))%Z).
  { apply (Zfloor_lub 0). simpl. nra. }
  rewrite INR_IZR_INZ, Z2Nat.id by exact H0. exact Hb.
Qed.

Lemma default_circle_count_witness :
  INR (List.length (vectorized_circle (Coords (2, 48)) 100 None))
  <= 2 * PI * 100
  /\ 2 * PI * 100
     < INR (List.length (vectorized_circle (Coords (2, 48)) 100 None)) + 1.
Proof.
  apply (default_circle_count (Coords (2, 48)) 100). lra.
Defined.

(** X23. Without [n_points], a circle whose circumference is under one
    kilometre has no point at all, and the batch distance to its points
    raises [ValueError]. *)
Theorem small_circle_is_empty (center : PointLike) (dist : R) :
  2 * PI * dist < 1 ->
  vectorized_circle center dist None = [] /\
  vectorized_distance center (vectorized_circle center dist None)
  = Raise ValueError.
Proof.
  intros Hd.
  assert (E : vectorized_circle center dist None = []).
  { apply length_zero_iff_nil.
    rewrite vectorized_circle_default, vectorized_circle_length.
    pose proof (Zfloor_bound (2 * PI * dist)) as [Hb _].
    assert (Zfloor (2 * PI * dist) < 1)%Z by (apply lt_IZR; lra).
    lia. }
  rewrite E. split; reflexivity.
Qed.

Lemma small_circle_is_empty_witness :
  vectorized_circle (Coords (2, 48)) 0 None = [] /\
  vectorized_distance (Coords (2, 48))
    (vectorized_circle (Coords (2, 48)) 0 None) = Raise ValueError.
Proof.
  apply (small_circle_is_empty (Coords (2, 48)) 0). lra.
Defined.

(** ** Rounding *)

Lemma round_half_even_cases (x : R) :
  (builtins.round_half_even x = Zfloor x /\ x - IZR (Zfloor x) <= 1 / 2) \/
  (builtins.round_half_even x = (Zfloor x + 1)%Z
   /\ 1 / 2 <= x - IZR (Zfloor x)).
Proof.
  unfold builtins.round_half_even.
  destruct (Rlt_dec _ _); [left; split; [reflexivity | lra] |].
  destruct (Rlt_dec _ _); [right; split; [reflexivity | lra] |].
  destruct (Z.even _); [left | right]; split; try reflexivity; lra.
Qed.

Lemma round_half_even_error (x : R) :
  - (1 / 2) <= IZR (builtins.round_half_even x) - x <= 1 / 2.
Proof.
  pose proof (Zfloor_bound x) as [H1 H2].
  destruct (round_half_even_cases x) as [[-> H] | [-> H]].
  - lra.
  - rewrite plus_IZR. lra.
Qed.

Lemma round_half_even_IZR (k : Z) : builtins.round_half_even (IZR k) = k.
Proof.
  unfold builtins.round_half_even. rewrite ZfloorZ.
  destruct (Rlt_dec _ _); [reflexivity | lra].
Qed.

Lemma round_half_even_monotone (x y : R) :
  x <= y -> (builtins.round_half_even x <= builtins.round_half_even y)%Z.
Proof.
  intros Hxy.
  pose proof (Zfloor_le x y Hxy) as Hf.
  destruct (Z.eq_dec (Zfloor x) (Zfloor y)) as [E | Hne].
  - unfold builtins.round_half_even. rewrite E.
    set (f := Zfloor y).
    destruct (Rlt_dec (x - IZR f) (1 / 2)).
    + destruct (Rlt_dec (y - IZR f) (1 / 2)); [lia |].
      destruct (Rlt_dec (1 / 2) (y - IZR f)); [lia |].
      destruct (Z.even f); lia.
    + destruct (Rlt_dec (y - IZR f) (1 / 2)); [lra |].
      destruct (Rlt_dec (1 / 2) (x - IZR f)).
      * destruct (Rlt_dec (1 / 2) (y - IZR f)); [lia | lra].
      * destruct (Rlt_dec (1 / 2) (y - IZR f)); [destruct (Z.even f); lia |].
        lia.
  - destruct (round_half_even_cases x) as [[-> _] | [-> _]];
      destruct (round_half_even_cases y) as [[-> _] | [-> _]]; lia.
Qed.

Lemma pow10_pos (p : Z) : 0 < powerRZ 10 p.
Proof. apply powerRZ_lt. lra. Qed.

Lemma round_error (x : R) (p : Z) :
  - / (2 * powerRZ 10 p) <= builtins.round x p - x <= / (2 * powerRZ 10 p).
Proof.
  unfold builtins.round. pose proof (pow10_pos p) as HP.
  set (P := powerRZ 10 p) in *.
  pose proof (round_half_even_error (x * P)) as [H1 H2].
  set (k := IZR (builtins.round_half_even (x * P))) in *.
  replace (k / P - x) with ((k - x * P) * / P) by (field; lra).
  replace (/ (2 * P)) with (1 / 2 * / P) by (field; lra).
  assert (0 < / P) by (apply Rinv_0_lt_compat; exact HP).
  split; nra.
Qed.

Lemma round_idempotent (x : R) (p : Z) :
  builtins.round (builtins.round x p) p = builtins.round x p.
Proof.
  unfold builtins.round. pose proof (pow10_pos p) as HP.
  set (P := powerRZ 10 p) in *.
  replace (IZR (builtins.round_half_even (x * P)) / P * P)
    with (IZR (builtins.round_half_even (x * P))) by (field; lra).
  rewrite round_half_even_IZR. reflexivity.
Qed.

Lemma round_monotone (x y : R) (p : Z) :
  x <= y -> builtins.round x p <= builtins.round y p.
Proof.
  intros H. unfold builtins.round. pose proof (pow10_pos p) as HP.
  apply Rmult_le_compat_r; [left; apply Rinv_0_lt_compat; exact HP |].
  apply IZR_le, round_half_even_monotone.
  apply Rmult_le_compat_r; lra.
Qed.

(** X24. [round_point] moves each coordinate by at most half a unit of
    the last kept decimal place, [1 / (2 * 10^prec)]. *)
Theorem round_point_error (point : PointLike) (prec : Z) :
  - / (2 * powerRZ 10 prec)
    <= fst (round_point point prec) - fst (unpack point)
    <= / (2 * powerRZ 10 prec) /\
  - / (2 * powerRZ 10 prec)
    <= snd (round_point point prec) - snd (unpack point)
    <= / (2 * powerRZ 10 prec).
Proof.
  unfold round_point. destruct (unpack point) as [x y]. cbn [fst snd].
  split; apply round_error.
Qed.

(** X25. [round_point] is idempotent: rounding a rounded point to the same
    precision changes nothing. *)
Theorem round_point_idempotent (point : PointLike) (prec : Z) :
  round_point (Coords (round_point point prec)) prec = round_point point prec.
Proof.
  unfold round_point. destruct (unpack point) as [x y]. cbn [unpack].
  rewrite !round_idempotent. reflexivity.
Qed.

(** X26. [round_point] keeps the order of longitudes and of latitudes:
    a coordinate that is not larger before rounding is not larger after. *)
Theorem round_point_monotone (p q : PointLike) (prec : Z) :
  (fst (unpack p) <= fst (unpack q) ->
   fst (round_point p prec) <= fst (round_point q prec)) /\
  (snd (unpack p) <= snd (unpack q) ->
   snd (round_point p prec) <= snd (round_point q prec)).
Proof.
  unfold round_point.
  destruct (unpack p) as [x y], (unpack q) as [x' y']. cbn [fst snd].
  split; apply round_monotone.
Qed.

Lemma round_point_monotone_witness :
  fst (round_point (Coords (1, 2)) 4) <= fst (round_point (Coords (3, 2)) 4).
Proof.
  apply (proj1 (round_point_monotone (Coords (1, 2)) (Coords (3, 2)) 4)).
  cbn [unpack fst]. lra.
Defined.

(** X27. [convert_points] returns one rounded pair per point, and is
    idempotent: converting its own output again changes nothing. *)
Theorem convert_points_idempotent (points : list PointLike) :
  List.length (convert_points points) = List.length points /\
  convert_points (map Coords (convert_points points)) = convert_points points.
Proof.
  unfold convert_points. split; [apply length_map |].
  rewrite !map_map. apply map_ext. intros p.
  unfold round_point. destruct (unpack p) as [x y]. cbn [unpack].
  rewrite !round_idempotent. reflexivity.
Qed.

(** X28. [Point.round] builds a new object whose fields are the rounded
    fields; the new object never compares equal to the point it was
    rounded from, even when rounding changes no digit. *)
Theorem Point_round_fresh (self : Point) (prec : Z) (next : nat) :
  (ident self < next)%nat ->
  exists q,
    Point_round self prec next = Ok (q, S next) /\
    (lon q, lat q) = round_point (PointObj self) prec /\
    Point_eq q self = false.
Proof.
  intros Hid. eexists. split; [reflexivity |]. split; [reflexivity |].
  unfold Point_eq. cbn [ident]. apply Nat.eqb_neq. lia.
Qed.

Lemma Point_round_fresh_witness :
  exists q,
    Point_round (mkPoint 0 1 2) 4 1 = Ok (q, 2%nat) /\
    (lon q, lat q) = round_point (PointObj (mkPoint 0 1 2)) 4 /\
    Point_eq q (mkPoint 0 1 2) = false.
Proof.
  apply (Point_round_fresh (mkPoint 0 1 2) 4 1). cbn [ident]. lia.
Defined.

(** ** Accessors of [Point] *)

(** X29. Iterating a point and indexing it agree: the item of rank [i]
    of the iteration is [v] exactly when [p[i]] returns [v]. *)
Theorem Point_iter_getitem_agree (p : Point) (i : nat) (v : R) :
  nth_error (Point_iter p) i = Some v <-> Point_getitem p (Z.of_nat i) = Ok v.
Proof.
  unfold Point_iter, Point_getitem.
  destruct i as [| [| i]]; cbn [nth_error].
  - cbn. split; intros H; injection H as <-; reflexivity.
  - cbn. split; intros H; injection H as <-; reflexivity.
  - destruct (Z.eqb_spec (Z.of_nat (S (S i))) 0); [lia |].
    destruct (Z.eqb_spec (Z.of_nat (S (S i))) 1); [lia |].
    destruct i; cbn [nth_error]; split; discriminate.
Qed.

Lemma Point_iter_getitem_agree_witness :
  Point_getitem (mkPoint 0 3 4) (Z.of_nat 1) = Ok 4.
Proof.
  apply (proj1 (Point_iter_getitem_agree (mkPoint 0 3 4) 1 4)).
  reflexivity.
Defined.

(** [Point.from_latlon(lat, lon)] builds the point [Point(lon, lat)]:
    its [latlon] is the pair it was given, its [lonlat] and [as_deg] the
    swapped pair, and [as_rad] is [to_rad] of the object. *)
Theorem from_latlon_swaps (lat0 lon0 : R) (next : nat) :
  from_latlon lat0 lon0 next = Point_new lon0 lat0 next /\
  exists p,
    from_latlon lat0 lon0 next = Ok (p, S next) /\
    latlon p = (lat0, lon0) /\ lonlat p = (lon0, lat0) /\
    as_deg p = (lon0, lat0) /\
    as_rad p = to_rad (PointObj p).
Proof.
  split; [reflexivity |]. eexists. repeat split.
Qed.
